(** * visualize_path.py: the gamma path on the Poincare disk

    A shallow embedding of the numeric core of [scripts/visualize_path.py]:
    the table of generator matrices, the Mobius action, the walk over a
    path of generator indices and the projection to the disk.

    The script computes with numpy [float64] matrices and complex scalars.
    The embedding is written once over a type class of scalars, the way the
    Python functions are generic in their operands, and used at two
    instances: binary64 floats ([float], what the script runs on) and the
    real numbers ([R], the exact arithmetic the formulas stand for). *)

From Stdlib Require Import ZArith List Floats Reals Lra Psatz Lia.
From stdpp Require Import base option list gmap strings.

Set Default Proof Using "Type".
Local Open Scope Z_scope.

(** ** Scalars *)

(** The operations of a numpy real scalar that the script reaches. *)
Class Scalar (A : Type) := {
  of_Z : Z -> A;                 (* an int literal stored with dtype=float *)
  sadd : A -> A -> A;
  ssub : A -> A -> A;
  smul : A -> A -> A;
  sdiv : A -> A -> A;
  sopp : A -> A;
  sabs : A -> A;
  sgeb : A -> A -> bool;         (* x >= y *)
  seqb : A -> A -> bool;         (* x == y *)
  sfinite : A -> bool            (* np.isfinite on a real scalar *)
}.

Declare Scope scalar_scope.
Delimit Scope scalar_scope with sc.
Infix "+" := sadd : scalar_scope.
Infix "-" := ssub : scalar_scope.
Infix "*" := smul : scalar_scope.
Infix "/" := sdiv : scalar_scope.
Notation "- x" := (sopp x) : scalar_scope.

(** binary64: an integer literal is rounded to the nearest float (exactly,
    below 2^53); the arithmetic is IEEE 754, total, with infinities and
    NaN. *)
Definition float_of_Z (z : Z) : float :=
  SF2Prim (binary_normalize prec emax z 0 false).

#[export] Instance float_scalar : Scalar float := {|
  of_Z := float_of_Z;
  sadd := PrimFloat.add;
  ssub := PrimFloat.sub;
  smul := PrimFloat.mul;
  sdiv := PrimFloat.div;
  sopp := PrimFloat.opp;
  sabs := PrimFloat.abs;
  sgeb := fun x y => PrimFloat.leb y x;
  seqb := PrimFloat.eqb;
  sfinite := PrimFloat.is_finite
|}.

(** Exact real arithmetic: every real is finite. *)
Definition Rgeb (x y : R) : bool := if Rle_dec y x then true else false.
Definition Reqb (x y : R) : bool := if Req_dec_T x y then true else false.

#[export] Instance R_scalar : Scalar R := {|
  of_Z := IZR;
  sadd := Rplus;
  ssub := Rminus;
  smul := Rmult;
  sdiv := Rdiv;
  sopp := Ropp;
  sabs := Rabs;
  sgeb := Rgeb;
  seqb := Reqb;
  sfinite := fun _ => true
|}.

(** ** Complex scalars *)

Record complex (A : Type) := Complex { re : A; im : A }.
Arguments Complex {A} _ _.
Arguments re {A} _.
Arguments im {A} _.

Section ComplexOps.
Context {A : Type} `{Scalar A}.
Local Open Scope scalar_scope.

(** [1j], the Python literal. *)
Definition j1 : complex A := Complex (of_Z 0) (of_Z 1).

(** A real scalar meeting a complex one is promoted with imaginary
    part 0. *)
Definition of_real (a : A) : complex A := Complex a (of_Z 0).

Definition cadd (z w : complex A) : complex A :=
  Complex (re z + re w) (im z + im w).

Definition csub (z w : complex A) : complex A :=
  Complex (re z - re w) (im z - im w).

Definition cmul (z w : complex A) : complex A :=
  Complex (re z * re w - im z * im w) (re z * im w + im z * re w).

(** The complex quotient of numpy scalars (Smith's method). A zero
    denominator does not raise: the parts are divided by zero, which in
    binary64 gives infinities or NaN. Every quotient of the script has
    numpy operands but one, [(1j - 1j) / (1j + 1j)] on the basepoint,
    where Python's own quotient gives the same [0j]. *)
Definition cdiv (z w : complex A) : complex A :=
  let in1r := re z in let in1i := im z in
  let in2r := re w in let in2i := im w in
  let in2r_abs := sabs in2r in
  let in2i_abs := sabs in2i in
  if sgeb in2r_abs in2i_abs then
    if seqb in2r_abs (of_Z 0) && seqb in2i_abs (of_Z 0) then
      Complex (in1r / in2r_abs) (in1i / in2r_abs)
    else
      let rat := in2i / in2r in
      let scl := of_Z 1 / (in2r + in2i * rat) in
      Complex ((in1r + in1i * rat) * scl) ((in1i - in1r * rat) * scl)
  else
    let rat := in2r / in2i in
    let scl := of_Z 1 / (in2i + in2r * rat) in
    Complex ((in1r * rat + in1i) * scl) ((in1i * rat - in1r) * scl).

(** [np.isfinite] on a complex scalar: both parts finite. *)
Definition isfinite (z : complex A) : bool :=
  sfinite (re z) && sfinite (im z).

(** The square of the modulus. *)
Definition norm_sq (z : complex A) : A := re z * re z + im z * im z.
End ComplexOps.

(** ** 2x2 matrices *)

Record matrix (A : Type) := Matrix { m00 : A; m01 : A; m10 : A; m11 : A }.
Arguments Matrix {A} _ _ _ _.
Arguments m00 {A} _.
Arguments m01 {A} _.
Arguments m10 {A} _.
Arguments m11 {A} _.

Section Generators.
Context {A : Type} `{Scalar A}.
Local Open Scope scalar_scope.

(** [np.array([[a, b], [c, d]], dtype=float)] on int literals. *)
Definition array (a b c d : Z) : matrix A :=
  Matrix (of_Z a) (of_Z b) (of_Z c) (of_Z d).

#[export] Instance matrix_inhabited : Inhabited (matrix A) :=
  populate (array 0 0 0 0).

Definition GENERATORS_UPPER : list (matrix A) :=
  [ array 2 1 1 1;
    array 3 2 1 1;
    array 5 3 2 1;
    array 7 4 3 2;
    array 11 7 4 3;
    array 13 8 5 3;
    array 17 11 7 4;
    array 19 12 8 5;
    array 23 14 9 6;
    array 21 13 8 5 ].

Definition invert_matrix (M : matrix A) : matrix A :=
  let a := m00 M in let b := m01 M in
  let c := m10 M in let d := m11 M in
  Matrix d (- b) (- c) a.

(** The module-level loops: [range(10)] stays inside the ten literals, so
    the subscript [GENERATORS_UPPER[i]] is a total lookup there. *)
Definition GENERATORS : list (matrix A) :=
  let G0 := [] in
  let G1 :=
    foldl (fun G i => G ++ [GENERATORS_UPPER !!! i]) G0 (seq 0 10) in
  foldl (fun G i => G ++ [invert_matrix (GENERATORS_UPPER !!! i)]) G1
        (seq 0 10).

(** Matrix product, determinant and identity, for stating the properties
    of the table. *)
Definition mat_mul (M N : matrix A) : matrix A :=
  Matrix (m00 M * m00 N + m01 M * m10 N) (m00 M * m01 N + m01 M * m11 N)
         (m10 M * m00 N + m11 M * m10 N) (m10 M * m01 N + m11 M * m11 N).

Definition det (M : matrix A) : A := m00 M * m11 M - m01 M * m10 M.

Definition identity : matrix A := array 1 0 0 1.

Definition mat_scale (k : A) (M : matrix A) : matrix A :=
  Matrix (k * m00 M) (k * m01 M) (k * m10 M) (k * m11 M).
End Generators.

(** ** Python lists and exceptions *)

Inductive exn : Type := IndexError.

(** A run either completes with a value or raises; a raise keeps the local
    state in which it happened. *)
Inductive outcome (S X : Type) : Type :=
| Done (x : X)
| Raised (e : exn) (st : S).
Arguments Done {S X} _.
Arguments Raised {S X} _ _.

(** [l[i]] on a Python list: a negative subscript counts from the end, and
    a subscript outside [-len(l), len(l) - 1] raises IndexError ([None]). *)
Definition list_getitem {X : Type} (l : list X) (i : Z) : option X :=
  let n := Z.of_nat (length l) in
  if 0 <=? i then l !! Z.to_nat i
  else if - n <=? i then l !! Z.to_nat (n + i)
  else None.

(** [d.get(k, default)] on a Python dict. *)
Definition dict_get {V : Type} (d : gmap string V) (k : string) (dflt : V) : V :=
  default dflt (d !! k).

(** ** The walk and the projection *)

Record walk (A : Type) := Walk {
  current : complex A;
  points_upper : list (complex A)
}.
Arguments Walk {A} _ _.
Arguments current {A} _.
Arguments points_upper {A} _.

(** What [animate_gamma_path] hands to the renderer. *)
Record animation (A : Type) := Animation {
  orbit : list (complex A);        (* points_upper *)
  points_disk : list (complex A);
  xs : list A;
  ys : list A;
  frames : nat                     (* frames=len(xs) *)
}.
Arguments Animation {A} _ _ _ _ _.
Arguments orbit {A} _.
Arguments points_disk {A} _.
Arguments xs {A} _.
Arguments ys {A} _.
Arguments frames {A} _.

Section Path.
Context {A : Type} `{Scalar A}.

Definition upper_halfplane_to_disk (z : complex A) : complex A :=
  cdiv (csub z j1) (cadd z j1).

Definition apply_mobius (M : matrix A) (z : complex A) : complex A :=
  let a := m00 M in let b := m01 M in
  let c := m10 M in let d := m11 M in
  cdiv (cadd (cmul (of_real a) z) (of_real b))
       (cadd (cmul (of_real c) z) (of_real d)).

(** One turn of [for idx in gamma]. *)
Definition walk_step (st : walk A) (idx : Z) : outcome (walk A) (walk A) :=
  match list_getitem GENERATORS idx with
  | None => Raised IndexError st
  | Some M =>
      let current := apply_mobius M (current st) in
      Done (Walk current (points_upper st ++ [current]))
  end.

Fixpoint walk_loop (gamma : list Z) (st : walk A)
  : outcome (walk A) (walk A) :=
  match gamma with
  | [] => Done st
  | idx :: rest =>
      match walk_step st idx with
      | Done st' => walk_loop rest st'
      | Raised e st' => Raised e st'
      end
  end.

Definition walk_init : walk A := Walk j1 [j1].

(** One turn of [for z in points_upper]. *)
Definition disk_step (acc : list (complex A)) (z : complex A)
  : list (complex A) :=
  if isfinite z then acc ++ [upper_halfplane_to_disk z]
  else acc ++ [Complex (of_Z 0) (of_Z 0)].

Definition to_disk (pts : list (complex A)) : list (complex A) :=
  foldl disk_step [] pts.

(** [animate_gamma_path], up to the call of the renderer. *)
Definition animate_gamma_path (gamma : list Z)
  : outcome (walk A) (animation A) :=
  match walk_loop gamma walk_init with
  | Raised e st => Raised e st
  | Done st =>
      let points_disk := to_disk (points_upper st) in
      let xs := map re points_disk in
      let ys := map im points_disk in
      Done (Animation (points_upper st) points_disk xs ys (length xs))
  end.

Definition default_gamma : list Z :=
  [0; 5; 1; 6; 2; 7; 3; 8; 4; 9; 10; 15; 11; 16; 12; 17; 13; 18; 14; 19].

(** The [__main__] block. [argv1] is [None] without a command-line
    argument and otherwise the object that [json.load] returned, its
    fields being arrays of ints. *)
Definition main (argv1 : option (gmap string (list Z)))
  : outcome (walk A) (animation A) :=
  let gamma :=
    match argv1 with
    | Some data => dict_get data "gamma" (dict_get data "private_key" [])
    | None => default_gamma
    end in
  animate_gamma_path gamma.
End Path.

(** ** Vocabulary of the properties *)

(** The subscripts [GENERATORS[idx]] accepts, and the generator indices of
    the specification. *)
Definition in_table (i : Z) : Prop := -20 <= i <= 19.
Definition is_generator_index (i : Z) : Prop := 0 <= i <= 19.

Section Vocabulary.
Context {A : Type} `{Scalar A}.

(** What the projection loop appends for one orbit point. *)
Definition disk_point (z : complex A) : complex A :=
  if isfinite z then upper_halfplane_to_disk z
  else Complex (of_Z 0) (of_Z 0).

(** In a state of the walk, [current] is the last point recorded. *)
Definition walk_ok (st : walk A) : Prop :=
  last (points_upper st) = Some (current st).
End Vocabulary.

(** The real number a binary64 float stands for (0 for infinities and
    NaN, which have none). *)
Definition SF2R (x : spec_float) : R :=
  match x with
  | S754_finite s m e => (IZR (cond_Zopp s (Zpos m)) * powerRZ 2 e)%R
  | _ => 0%R
  end.

Definition F2R (x : float) : R := SF2R (Prim2SF x).

(** [abs(z - w) <= tol] on binary64 complex scalars, as a test compares
    them. *)
Definition cabs (z : complex float) : float := PrimFloat.sqrt (norm_sq z).

Definition approx (tol : float) (z w : complex float) : bool :=
  PrimFloat.leb (cabs (csub z w)) tol.

(** The animation of the empty path: one frame, the basepoint at the
    origin of the disk. *)
Definition empty_animation : animation float :=
  (Animation [j1] [Complex 0 0] [0] [0] 1%nat)%float.

(** The binary64 value of the literal [1e-9]. *)
Definition tol_1e9 : float := 0x1.12e0be826d695p-30%float.

(** Two binary64 matrices agree entry by entry within [tol]. *)
Definition mat_approx (tol : float) (M N : matrix float) : bool :=
  PrimFloat.leb (PrimFloat.abs (m00 M - m00 N)) tol
  && PrimFloat.leb (PrimFloat.abs (m01 M - m01 N)) tol
  && PrimFloat.leb (PrimFloat.abs (m10 M - m10 N)) tol
  && PrimFloat.leb (PrimFloat.abs (m11 M - m11 N)) tol.

(** ** The frames *)

(** [l[:n]] on a Python list: a negative bound counts from the end, and
    a bound beyond either end is clipped. *)
Definition slice_to {X : Type} (l : list X) (n : Z) : list X :=
  if 0 <=? n then take (Z.to_nat n) l
  else take (Z.to_nat (Z.of_nat (length l) + n)) l.

(** The data of the three plot artists; [set_data] replaces a pair of
    coordinate lists. *)
Record artists (A : Type) := Artists {
  line : list A * list A;
  point : list A * list A;
  trail : list A * list A
}.
Arguments Artists {A} _ _ _.
Arguments line {A} _.
Arguments point {A} _.
Arguments trail {A} _.

Section Frames.
Context {A : Type}.

Definition set_line (art : artists A) (d : list A * list A) : artists A :=
  Artists d (point art) (trail art).
Definition set_point (art : artists A) (d : list A * list A) : artists A :=
  Artists (line art) d (trail art).
Definition set_trail (art : artists A) (d : list A * list A) : artists A :=
  Artists (line art) (point art) d.

(** The nested [init()]. *)
Definition init (art : artists A) : artists A :=
  set_trail (set_point (set_line art ([], [])) ([], [])) ([], []).

(** The nested [update(frame)] over the coordinate lists [xs] and [ys]. A
    subscript that raises leaves the artists as the calls before it set
    them. *)
Definition update (xs ys : list A) (art : artists A) (frame : Z)
  : outcome (artists A) (artists A) :=
  if frame =? 0 then
    match list_getitem xs 0, list_getitem ys 0 with
    | Some x0, Some y0 =>
        let art := set_trail art ([x0], [y0]) in
        let art := set_point art ([x0], [y0]) in
        Done (set_line art ([x0], [y0]))
    | _, _ => Raised IndexError art
    end
  else
    let art := set_trail art (slice_to xs (frame + 1), slice_to ys (frame + 1)) in
    match list_getitem xs frame, list_getitem ys frame with
    | Some x, Some y =>
        let art := set_point art ([x], [y]) in
        Done (set_line art (slice_to xs (frame + 1), slice_to ys (frame + 1)))
    | _, _ => Raised IndexError art
    end.
End Frames.

(** A subscript of the table counted from its start. *)
Definition from_start (idx : Z) : Z := if idx <? 0 then idx + 20 else idx.

(** The point is off the real axis. *)
Definition off_axis (z : complex R) : Prop := im z <> 0%R.

(** The subscript selects a matrix of positive determinant. *)
Definition orientation_preserving (idx : Z) : Prop :=
  exists M, list_getitem (GENERATORS (A:=R)) idx = Some M /\ (0 < det M)%R.

(** ** The generator table and list subscripts *)

Section TableFacts.
Context {A : Type} `{Scalar A}.

Lemma GENERATORS_eq :
  GENERATORS (A:=A) = GENERATORS_UPPER ++ map invert_matrix GENERATORS_UPPER.
Proof. reflexivity. Qed.

Lemma GENERATORS_length : length (GENERATORS (A:=A)) = 20%nat.
Proof. reflexivity. Qed.

Lemma list_getitem_nonneg {X} (l : list X) (i : Z) :
  0 <= i -> list_getitem l i = l !! Z.to_nat i.
Proof.
  intros Hi. unfold list_getitem.
  destruct (Z.leb_spec 0 i); [reflexivity | lia].
Qed.

Lemma list_getitem_neg {X} (l : list X) (i : Z) :
  - Z.of_nat (length l) <= i < 0 ->
  list_getitem l i = l !! Z.to_nat (Z.of_nat (length l) + i).
Proof.
  intros Hi. unfold list_getitem.
  destruct (Z.leb_spec 0 i); [lia |].
  destruct (Z.leb_spec (- Z.of_nat (length l)) i); [reflexivity | lia].
Qed.

Lemma list_getitem_Some {X} (l : list X) (i : Z) :
  - Z.of_nat (length l) <= i < Z.of_nat (length l) ->
  is_Some (list_getitem l i).
Proof.
  intros Hi. destruct (Z_lt_le_dec i 0).
  - rewrite list_getitem_neg by lia. apply lookup_lt_is_Some. lia.
  - rewrite list_getitem_nonneg by lia. apply lookup_lt_is_Some. lia.
Qed.

Lemma list_getitem_None {X} (l : list X) (i : Z) :
  i < - Z.of_nat (length l) \/ Z.of_nat (length l) <= i ->
  list_getitem l i = None.
Proof.
  intros Hi. unfold list_getitem.
  destruct (Z.leb_spec 0 i).
  - apply lookup_ge_None. lia.
  - destruct (Z.leb_spec (- Z.of_nat (length l)) i); [lia | reflexivity].
Qed.

Lemma generator_in_table (i : Z) :
  in_table i -> is_Some (list_getitem (GENERATORS (A:=A)) i).
Proof.
  unfold in_table. intros Hi. apply list_getitem_Some.
  rewrite GENERATORS_length. lia.
Qed.

Lemma generator_off_table (i : Z) :
  ~ in_table i -> list_getitem (GENERATORS (A:=A)) i = None.
Proof.
  unfold in_table. intros Hi. apply list_getitem_None.
  rewrite GENERATORS_length. lia.
Qed.
End TableFacts.

(** ** The loops *)

Section WalkFacts.
Context {A : Type} `{Scalar A}.

Lemma disk_step_snoc acc z : disk_step acc z = acc ++ [disk_point z].
Proof. unfold disk_step, disk_point. destruct (isfinite z); reflexivity. Qed.

Lemma foldl_disk_step pts acc :
  foldl disk_step acc pts = acc ++ map disk_point pts.
Proof.
  revert acc. induction pts as [|z pts IH]; intros acc; simpl.
  - now rewrite app_nil_r.
  - rewrite IH, disk_step_snoc, <- app_assoc. reflexivity.
Qed.

Lemma to_disk_map pts : to_disk pts = map disk_point pts.
Proof. unfold to_disk. now rewrite foldl_disk_step. Qed.

Lemma walk_loop_app pre post st :
  walk_loop (pre ++ post) st =
  match walk_loop pre st with
  | Done st' => walk_loop post st'
  | Raised e st' => Raised e st'
  end.
Proof.
  revert st. induction pre as [|idx pre IH]; intros st; simpl.
  - reflexivity.
  - destruct (walk_step st idx); [apply IH | reflexivity].
Qed.

Lemma walk_step_Done st idx M :
  list_getitem GENERATORS idx = Some M ->
  walk_step st idx =
  Done (Walk (apply_mobius M (current st))
             (points_upper st ++ [apply_mobius M (current st)])).
Proof. intros E. unfold walk_step. now rewrite E. Qed.

Lemma walk_step_Raised st idx :
  ~ in_table idx -> walk_step st idx = Raised IndexError st.
Proof.
  intros Hi. unfold walk_step. now rewrite generator_off_table.
Qed.

(** A walk over subscripts of the table runs to completion. *)
Lemma walk_loop_Done gamma st :
  Forall in_table gamma -> exists st', walk_loop gamma st = Done st'.
Proof.
  intros Hg. revert st.
  induction Hg as [|idx gamma Hi _ IH]; intros st; simpl.
  - eauto.
  - destruct (generator_in_table (A:=A) idx Hi) as [M E].
    rewrite (walk_step_Done _ _ _ E). apply IH.
Qed.

(** A walk that completes stops with [current] the last point recorded,
    one more point per subscript, and the earlier points in place. *)
Lemma walk_loop_inv gamma st st' :
  walk_loop gamma st = Done st' ->
  walk_ok st ->
  walk_ok st' /\
  length (points_upper st') = (length (points_upper st) + length gamma)%nat /\
  points_upper st `prefix_of` points_upper st'.
Proof.
  revert st. induction gamma as [|idx gamma IH]; intros st; simpl.
  - intros [= <-] Hok. rewrite Nat.add_0_r. auto.
  - unfold walk_step at 1.
    destruct (list_getitem GENERATORS idx) as [M|]; [|discriminate].
    intros E Hok. apply IH in E as (Hok' & Hlen & Hpre).
    + split; [exact Hok'|]. split.
      * rewrite Hlen. simpl. rewrite length_app. simpl. lia.
      * etransitivity; [|exact Hpre]. simpl. now apply prefix_app_r.
    + unfold walk_ok. simpl. apply last_snoc.
Qed.

(** Each step of a completed walk applies the matrix of its subscript to
    the point recorded before it, whatever that point is. *)
Lemma walk_loop_steps gamma st st' :
  walk_loop gamma st = Done st' ->
  walk_ok st ->
  forall k idx, gamma !! k = Some idx ->
    exists M z,
      list_getitem GENERATORS idx = Some M /\
      points_upper st' !! (length (points_upper st) + k - 1)%nat = Some z /\
      points_upper st' !! (length (points_upper st) + k)%nat
        = Some (apply_mobius M z).
Proof.
  revert st. induction gamma as [|i gamma IH]; intros st; simpl.
  - intros _ _ k idx Hk. now rewrite lookup_nil in Hk.
  - unfold walk_step at 1.
    destruct (list_getitem GENERATORS i) as [M|] eqn:EM; [|discriminate].
    intros E Hok k idx Hk.
    set (st1 := Walk (apply_mobius M (current st))
                     (points_upper st ++ [apply_mobius M (current st)])) in *.
    assert (Hok1 : walk_ok st1) by (unfold walk_ok; simpl; apply last_snoc).
    destruct (walk_loop_inv _ _ _ E Hok1) as (_ & _ & Hpre).
    assert (Hn : length (points_upper st) <> 0%nat).
    { unfold walk_ok in Hok. destruct (points_upper st); [discriminate|].
      simpl. lia. }
    destruct k as [|k]; simpl in Hk.
    + injection Hk as <-. exists M, (current st). split; [exact EM|].
      split.
      * eapply prefix_lookup_Some; [|exact Hpre]. simpl.
        rewrite lookup_app_l by lia.
        unfold walk_ok in Hok. rewrite last_lookup in Hok.
        rewrite <- Hok. f_equal. lia.
      * eapply prefix_lookup_Some; [|exact Hpre]. simpl.
        rewrite Nat.add_0_r. rewrite lookup_app_r by lia.
        now rewrite Nat.sub_diag.
    + destruct (IH st1 E Hok1 k idx Hk) as (M' & z & E1 & E2 & E3).
      exists M', z. split; [exact E1|].
      simpl in E2, E3. rewrite length_app in E2, E3. simpl in E2, E3.
      split.
      * rewrite <- E2. f_equal. lia.
      * rewrite <- E3. f_equal. lia.
Qed.

(** A subscript off the table stops the walk in the state reached on the
    subscripts before it. *)
Lemma walk_loop_Raised pre i post st :
  Forall in_table pre -> ~ in_table i ->
  exists st', walk_loop pre st = Done st' /\
              walk_loop (pre ++ i :: post) st = Raised IndexError st'.
Proof.
  intros Hpre Hi. destruct (walk_loop_Done pre st Hpre) as [st' E].
  exists st'. split; [exact E|].
  rewrite walk_loop_app, E. simpl. now rewrite walk_step_Raised.
Qed.

Lemma walk_init_ok : walk_ok walk_init.
Proof. reflexivity. Qed.

Lemma is_generator_index_in_table gamma :
  Forall is_generator_index gamma -> Forall in_table gamma.
Proof.
  intros Hg. eapply Forall_impl; [exact Hg|].
  unfold is_generator_index, in_table. intros; lia.
Qed.
End WalkFacts.


(** ** Orbits of paths *)

Section OrbitClaims.
Context {A : Type} `{Scalar A}.

Lemma animate_Done gamma st :
  walk_loop gamma walk_init = Done st ->
  exists a, animate_gamma_path (A:=A) gamma = Done a /\
            orbit a = points_upper st /\
            points_disk a = map disk_point (points_upper st) /\
            frames a = length (points_upper st).
Proof.
  intros E. unfold animate_gamma_path. rewrite E. eexists.
  split; [reflexivity|]. simpl. rewrite to_disk_map, !length_map. auto.
Qed.

(** C3: a path of L generator indices in [0,19] is walked to the end; the
    orbit has L+1 points and starts at the basepoint 0+1i, the projected
    sequence has L+1 points too, and the orbit of the empty path is the
    basepoint alone. *)
Theorem orbit_length (gamma : list Z) :
  Forall is_generator_index gamma ->
  exists a, animate_gamma_path (A:=A) gamma = Done a /\
            length (orbit a) = S (length gamma) /\
            orbit a !! 0%nat = Some j1 /\
            length (points_disk a) = S (length gamma) /\
            (gamma = [] -> orbit a = [j1]).
Proof.
  intros Hg. apply is_generator_index_in_table in Hg.
  destruct (walk_loop_Done gamma walk_init Hg) as [st E].
  destruct (animate_Done _ _ E) as (a & Ea & Eo & Ed & _).
  destruct (walk_loop_inv _ _ _ E walk_init_ok) as (_ & Hlen & Hpre).
  exists a. rewrite Ed, Eo, length_map, Hlen.
  split; [exact Ea|]. split; [reflexivity|]. split; [|split].
  - eapply prefix_lookup_Some; [|exact Hpre]. reflexivity.
  - reflexivity.
  - intros ->. simpl in E. now injection E as <-.
Qed.

(** C4, as amended: a subscript outside [-20,19] raises IndexError. The
    walk stops at the first such element in the state reached on the
    elements before it, whose orbit holds the basepoint and one point per
    earlier element: no Mobius image is computed for the offending
    element or after it. The path [20] raises at once. *)
Theorem index_error_off_table (pre post : list Z) (i : Z) :
  Forall in_table pre -> ~ in_table i ->
  (exists st, walk_loop (A:=A) pre walk_init = Done st /\
              length (points_upper st) = S (length pre) /\
              animate_gamma_path (pre ++ i :: post) = Raised IndexError st) /\
  animate_gamma_path (A:=A) [20] = Raised IndexError walk_init.
Proof.
  intros Hpre Hi. split.
  - destruct (walk_loop_Raised pre i post walk_init Hpre Hi) as (st & E & ER).
    exists st. split; [exact E|]. split.
    + now destruct (walk_loop_inv _ _ _ E walk_init_ok) as (_ & -> & _).
    + unfold animate_gamma_path. now rewrite ER.
  - reflexivity.
Qed.

(** C10: a subscript idx in [-20,-1] does not raise; it selects the matrix
    at position 20+idx of the table, and the walk goes on with that
    matrix from whatever state it is in. *)
Theorem negative_index_wraps (idx : Z) :
  -20 <= idx <= -1 ->
  exists M, GENERATORS (A:=A) !! Z.to_nat (20 + idx) = Some M /\
            list_getitem GENERATORS idx = Some M /\
            (forall st, walk_step st idx =
                        Done (Walk (apply_mobius M (current st))
                                   (points_upper st
                                      ++ [apply_mobius M (current st)]))) /\
            exists a, animate_gamma_path [idx] = Done a /\
                      orbit a = [j1; apply_mobius M j1].
Proof.
  intros Hi.
  assert (E : list_getitem (GENERATORS (A:=A)) idx
              = GENERATORS !! Z.to_nat (20 + idx)).
  { rewrite list_getitem_neg by (rewrite GENERATORS_length; lia).
    now rewrite GENERATORS_length. }
  destruct (generator_in_table (A:=A) idx) as [M EM];
    [unfold in_table; lia|].
  exists M. split; [now rewrite <- E|]. split; [exact EM|]. split.
  - intros st. now apply walk_step_Done.
  - destruct (animate_Done [idx] (Walk (apply_mobius M j1)
                                       [j1; apply_mobius M j1]))
      as (a & Ea & Eo & _).
    + simpl. now rewrite (walk_step_Done _ _ _ EM).
    + exists a. auto.
Qed.

(** Every step of a completed walk is recorded, and every orbit point is
    projected by [disk_point]. *)
Lemma animate_steps (gamma : list Z) :
  Forall in_table gamma ->
  exists a, animate_gamma_path (A:=A) gamma = Done a /\
    (forall k idx, gamma !! k = Some idx ->
       exists M z, list_getitem GENERATORS idx = Some M /\
                   orbit a !! k = Some z /\
                   orbit a !! S k = Some (apply_mobius M z)) /\
    (forall k z, orbit a !! k = Some z ->
                 points_disk a !! k = Some (disk_point z)).
Proof.
  intros Hg. destruct (walk_loop_Done gamma walk_init Hg) as [st E].
  destruct (animate_Done _ _ E) as (a & Ea & Eo & Ed & _).
  exists a. split; [exact Ea|]. rewrite Eo, Ed. split.
  - intros k idx Hk.
    destruct (walk_loop_steps _ _ _ E walk_init_ok k idx Hk)
      as (M & z & EM & Ez & Ez').
    exists M, z. simpl in Ez, Ez'. rewrite Nat.sub_0_r in Ez. auto.
  - intros k z Hz. now rewrite list_lookup_fmap, Hz.
Qed.
End OrbitClaims.

Lemma orbit_length_witness :
  exists a, animate_gamma_path (A:=float) [0; 5; 11] = Done a /\
            length (orbit a) = 4%nat /\
            orbit a !! 0%nat = Some j1 /\
            length (points_disk a) = 4%nat /\
            ([0; 5; 11] = [] -> orbit a = [j1]).
Proof.
  apply (orbit_length [0; 5; 11]).
  repeat constructor; unfold is_generator_index; lia.
Defined.

Lemma index_error_off_table_witness :
  (exists st, walk_loop (A:=float) [3; -2] walk_init = Done st /\
              length (points_upper st) = 3%nat /\
              animate_gamma_path ([3; -2] ++ 20 :: [4]) = Raised IndexError st) /\
  animate_gamma_path (A:=float) [20] = Raised IndexError walk_init.
Proof.
  apply (index_error_off_table [3; -2] [4] 20).
  - repeat constructor; unfold in_table; lia.
  - unfold in_table; lia.
Defined.

Lemma negative_index_wraps_witness :
  exists M, GENERATORS (A:=float) !! Z.to_nat (20 + -3) = Some M /\
            list_getitem GENERATORS (-3) = Some M /\
            (forall st, walk_step st (-3) =
                        Done (Walk (apply_mobius M (current st))
                                   (points_upper st
                                      ++ [apply_mobius M (current st)]))) /\
            exists a, animate_gamma_path [-3] = Done a /\
                      orbit a = [j1; apply_mobius M j1].
Proof. apply (negative_index_wraps (-3)). lia. Defined.

(** C4 as stated fails on the path [-1]: -1 lies outside [0,19], yet the
    subscript wraps to the last matrix of the table and the walk
    completes. *)
Lemma path_minus_one_completes :
  (exists a, animate_gamma_path (A:=float) [-1] = Done a /\
             length (orbit a) = 2%nat) /\
  ~ (forall gamma : list Z,
       Exists (fun i => ~ is_generator_index i) gamma ->
       exists st, animate_gamma_path (A:=float) gamma = Raised IndexError st).
Proof.
  assert (E : exists a, animate_gamma_path (A:=float) [-1] = Done a /\
                        length (orbit a) = 2%nat).
  { eexists. split; [vm_compute; reflexivity | reflexivity]. }
  split; [exact E|].
  intros Hall. destruct E as (a & Ea & _).
  destruct (Hall [-1]) as [st Est].
  - constructor. unfold is_generator_index. lia.
  - rewrite Ea in Est. discriminate.
Qed.

(** ** Exact arithmetic *)

Section Exact.
Local Open Scope R_scope.

(** Over the reals the quotient computed by [cdiv] is the quotient of
    complex numbers, for every nonzero denominator. *)
Lemma cdiv_exact (z w : complex R) :
  re w <> 0 \/ im w <> 0 ->
  cdiv z w =
  Complex ((re z * re w + im z * im w) / (re w * re w + im w * im w))
          ((im z * re w - re z * im w) / (re w * re w + im w * im w)).
Proof.
  destruct z as [a b], w as [c d]. simpl. intros Hw.
  assert (Hcd : c * c + d * d <> 0) by (destruct Hw; nra).
  unfold cdiv. simpl. unfold Rgeb, Reqb.
  destruct (Rle_dec (Rabs d) (Rabs c)) as [Hle|Hgt].
  - assert (Hc : c <> 0).
    { intros ->. rewrite Rabs_R0 in Hle.
      pose proof (Rabs_pos d). assert (Rabs d = 0) by lra.
      destruct Hw as [Hw|Hw]; [lra|]. now apply Rabs_no_R0 in Hw. }
    destruct (Req_dec_T (Rabs c) 0) as [E|_].
    { now apply Rabs_no_R0 in Hc. }
    simpl. f_equal; field; split; auto; nra.
  - assert (Hd : d <> 0).
    { intros ->. rewrite Rabs_R0 in Hgt. pose proof (Rabs_pos c). lra. }
    f_equal; field; split; auto; nra.
Qed.
Lemma projection_exact (z : complex R) :
  0 < im z ->
  upper_halfplane_to_disk z =
  Complex ((re z * re z + im z * im z - 1)
             / (re z * re z + (im z + 1) * (im z + 1)))
          (- 2 * re z / (re z * re z + (im z + 1) * (im z + 1))).
Proof.
  destruct z as [x y]. simpl. intros Hy.
  unfold upper_halfplane_to_disk. rewrite cdiv_exact by (simpl; right; lra).
  simpl. f_equal; field; nra.
Qed.

(** C7, as amended: in exact arithmetic the projection of z is the
    quotient (z - i)/(z + i), and for every z with positive imaginary part
    it lies strictly inside the unit circle; the basepoint 0+1i is
    projected to exactly (0,0), in binary64 as well. *)
Theorem projection_inside_disk (z : complex R) :
  0 < im z ->
  cmul (upper_halfplane_to_disk z) (cadd z j1) = csub z j1 /\
  norm_sq (upper_halfplane_to_disk z) < 1 /\
  upper_halfplane_to_disk (A:=R) j1 = Complex 0 0 /\
  upper_halfplane_to_disk (A:=float) j1 = Complex 0%float 0%float.
Proof.
  intros Hy. rewrite projection_exact by exact Hy.
  destruct z as [x y]. simpl in *.
  assert (HD : x * x + (y + 1) * (y + 1) <> 0) by nra.
  split; [|split; [|split]].
  - unfold cmul, cadd, csub. simpl. f_equal; field; exact HD.
  - unfold norm_sq. simpl.
    assert (E : (x * x + y * y - 1) / (x * x + (y + 1) * (y + 1))
                * ((x * x + y * y - 1) / (x * x + (y + 1) * (y + 1)))
                + - 2 * x / (x * x + (y + 1) * (y + 1))
                  * (- 2 * x / (x * x + (y + 1) * (y + 1)))
                = (x * x + (y - 1) * (y - 1)) / (x * x + (y + 1) * (y + 1)))
      by (field; exact HD).
    rewrite E. apply (Rmult_lt_reg_r (x * x + (y + 1) * (y + 1))); [nra|].
    unfold Rdiv. rewrite Rmult_assoc, Rinv_l by exact HD. nra.
  - rewrite projection_exact by (simpl; lra). simpl. f_equal; field.
  - reflexivity.
Qed.

Lemma projection_inside_disk_witness :
  cmul (upper_halfplane_to_disk (Complex 2 3)) (cadd (Complex 2 3) j1)
    = csub (Complex 2 3) j1 /\
  norm_sq (upper_halfplane_to_disk (Complex 2 3)) < 1 /\
  upper_halfplane_to_disk (A:=R) j1 = Complex 0 0 /\
  upper_halfplane_to_disk (A:=float) j1 = Complex 0%float 0%float.
Proof. apply (projection_inside_disk (Complex 2 3)). simpl. lra. Defined.

(** C9: for every real matrix M, [invert_matrix M] is the adjugate: its
    product with M is det(M) times the identity, and it is the inverse of
    M exactly when det(M) = 1. *)
Theorem invert_matrix_adjugate (M : matrix R) :
  mat_mul (invert_matrix M) M = mat_scale (det M) identity /\
  (mat_mul (invert_matrix M) M = identity /\
   mat_mul M (invert_matrix M) = identity <-> det M = 1).
Proof.
  destruct M as [a b c d].
  unfold mat_mul, invert_matrix, mat_scale, det, identity, array. simpl.
  split; [f_equal; ring|]. split.
  - intros [E _]. injection E as E _ _ _. lra.
  - intros E. split; f_equal; nra.
Qed.

(** The exact values on the path [0]. *)
Lemma mobius_basepoint_exact :
  apply_mobius (A:=R) (array 2 1 1 1) j1 = Complex (3 / 2) (1 / 2).
Proof.
  unfold apply_mobius. rewrite cdiv_exact by (simpl; left; lra).
  simpl. f_equal; field.
Qed.

Lemma projection_example_exact :
  upper_halfplane_to_disk (A:=R) (Complex (3 / 2) (1 / 2))
    = Complex (1 / 3) (- 2 / 3) /\
  cdiv (A:=R) (Complex (3 / 2) (- 1 / 2)) (Complex (3 / 2) (3 / 2))
    = Complex (1 / 3) (- 2 / 3).
Proof.
  split.
  - rewrite projection_exact by (simpl; lra). simpl. f_equal; field.
  - rewrite cdiv_exact by (simpl; left; lra). simpl. f_equal; field.
Qed.
End Exact.

(** ** The script's arithmetic: binary64 *)

Section Binary64.
Local Open Scope float_scope.

(** C1, at the pair of indices 12 and 2: the matrix that [invert_matrix]
    builds from the third base matrix [[5,3],[2,1]] multiplies with it to
    minus the identity, which is not the identity within 1e-9. *)
Theorem generator_12_times_generator_2 :
  GENERATORS (A:=float) !! 2%nat = Some (Matrix 5 3 2 1) /\
  GENERATORS (A:=float) !! 12%nat = Some (Matrix 1 (-3) (-2) 5) /\
  mat_mul (Matrix 1 (-3) (-2) 5) (Matrix 5 3 2 1) = Matrix (-1) 0 0 (-1) /\
  mat_approx tol_1e9 (mat_mul (Matrix 1 (-3) (-2) 5) (Matrix 5 3 2 1))
             identity = false.
Proof. repeat split; vm_compute; reflexivity. Qed.

(** The product of each computed matrix with its base matrix is the
    determinant of the base matrix times the identity; it is the identity
    for the indices 0, 1 and 9 only. *)
Lemma inverse_products :
  zip_with mat_mul (drop 10 (GENERATORS (A:=float)))
                   (take 10 (GENERATORS (A:=float)))
  = map (fun d => Matrix d 0 0 d) [1; 1; -1; 2; 5; -1; -9; -1; 12; 1].
Proof. vm_compute. reflexivity. Qed.

(** C2, on the table as it is: the determinants of the twenty matrices,
    in order. Only the base matrices 0, 1 and 9 and the matrices built
    from them have determinant 1; the third base matrix has -1. *)
Theorem generator_determinants :
  map det (GENERATORS_UPPER (A:=float))
    = [1; 1; -1; 2; 5; -1; -9; -1; 12; 1] /\
  map det (GENERATORS (A:=float))
    = [1; 1; -1; 2; 5; -1; -9; -1; 12; 1;
       1; 1; -1; 2; 5; -1; -9; -1; 12; 1] /\
  (det <$> GENERATORS_UPPER (A:=float) !! 2%nat) = Some (-1).
Proof. repeat split; vm_compute; reflexivity. Qed.

(** A degenerate Mobius step: the first generator sends -1 to -1/0. The
    quotient does not raise; its value is not finite, and the projection
    loop replaces it by the origin. *)
Lemma degenerate_step :
  apply_mobius (array 2 1 1 1) (Complex (-1) 0) = Complex neg_infinity nan /\
  isfinite (Complex neg_infinity nan) = false /\
  disk_point (Complex neg_infinity nan) = Complex 0 0.
Proof. repeat split; vm_compute; reflexivity. Qed.

(** C5: on a path of generator indices the walk never raises. Each step
    records the Mobius image of the point before it, finite or not, and
    goes on from there; the projection sends each finite orbit point z to
    (z - i)/(z + i) and each non-finite one to (0,0), which is finite. *)
Theorem non_finite_points_fall_back (gamma : list Z) :
  Forall is_generator_index gamma ->
  exists a, animate_gamma_path (A:=float) gamma = Done a /\
    (forall k idx, gamma !! k = Some idx ->
       exists M z, list_getitem GENERATORS idx = Some M /\
                   orbit a !! k = Some z /\
                   orbit a !! S k = Some (apply_mobius M z)) /\
    (forall k z, orbit a !! k = Some z ->
       points_disk a !! k =
       Some (if isfinite z then upper_halfplane_to_disk z
             else Complex 0 0)) /\
    isfinite (Complex 0 0) = true.
Proof.
  intros Hg. apply is_generator_index_in_table in Hg.
  destruct (animate_steps (A:=float) gamma Hg) as (a & Ea & Hsteps & Hdisk).
  exists a. split; [exact Ea|]. split; [exact Hsteps|].
  split; [exact Hdisk | reflexivity].
Qed.

Lemma non_finite_points_fall_back_witness :
  exists a, animate_gamma_path (A:=float) [0; 12; 7]%Z = Done a /\
    (forall k idx, [0; 12; 7]%Z !! k = Some idx ->
       exists M z, list_getitem GENERATORS idx = Some M /\
                   orbit a !! k = Some z /\
                   orbit a !! S k = Some (apply_mobius M z)) /\
    (forall k z, orbit a !! k = Some z ->
       points_disk a !! k =
       Some (if isfinite z then upper_halfplane_to_disk z
             else Complex 0 0)) /\
    isfinite (Complex 0 0) = true.
Proof.
  apply (non_finite_points_fall_back [0; 12; 7]%Z).
  repeat constructor; unfold is_generator_index; lia.
Defined.

(** C6, as amended: a JSON object with neither a [gamma] nor a
    [private_key] field is not an error. The path defaults to the empty
    list and the script goes on to animate it. *)
Theorem missing_fields_default_to_empty_path (data : gmap string (list Z)) :
  data !! "gamma" = None -> data !! "private_key" = None ->
  main (A:=float) (Some data) = animate_gamma_path [] /\
  main (A:=float) (Some data) = Done empty_animation.
Proof.
  intros Eg Ep. unfold main, dict_get. rewrite Eg, Ep. simpl.
  split; reflexivity.
Qed.

Lemma missing_fields_default_to_empty_path_witness :
  main (A:=float) (Some {[ "key" := [1; 2]%Z ]}) = animate_gamma_path [] /\
  main (A:=float) (Some {[ "key" := [1; 2]%Z ]}) = Done empty_animation.
Proof.
  apply (missing_fields_default_to_empty_path {[ "key" := [1; 2]%Z ]});
    reflexivity.
Defined.

(** C6 as stated fails on the empty JSON object: the run completes. *)
Lemma empty_object_is_animated :
  main (A:=float) (Some ∅) = Done empty_animation /\
  ~ (forall data : gmap string (list Z),
       data !! "gamma" = None -> data !! "private_key" = None ->
       exists e st, main (A:=float) (Some data) = Raised e st).
Proof.
  assert (E : main (A:=float) (Some ∅) = Done empty_animation)
    by (vm_compute; reflexivity).
  split; [exact E|]. intros Hall.
  destruct (Hall ∅) as (e & st & Er); [reflexivity | reflexivity |].
  rewrite E in Er. discriminate.
Qed.

(** C7 as stated fails in binary64 at z = 1 + 2^-60 i: z is finite with
    positive imaginary part, z - i rounds to 1 - i, and the projection is
    -i, of modulus exactly 1. *)
Lemma projection_reaches_unit_circle :
  (isfinite (Complex 1 0x1p-60) = true /\
   PrimFloat.ltb 0 (im (Complex 1 0x1p-60)) = true /\
   upper_halfplane_to_disk (Complex 1 0x1p-60) = Complex 0 (-1) /\
   norm_sq (Complex 0 (-1)) = 1 /\
   cabs (Complex 0 (-1)) = 1) /\
  ~ (forall z : complex float,
       isfinite z = true -> PrimFloat.ltb 0 (im z) = true ->
       PrimFloat.ltb (cabs (upper_halfplane_to_disk z)) 1 = true).
Proof.
  split; [repeat split; vm_compute; reflexivity|].
  intros Hall. specialize (Hall (Complex 1 0x1p-60) eq_refl eq_refl).
  vm_compute in Hall. discriminate.
Qed.
(** C8: on the path [0] the generator [[2,1],[1,1]] sends the basepoint to
    exactly 1.5+0.5i, and the projected point agrees within 1e-9 with
    (1.5 - 0.5i)/(1.5 + 1.5i), both as binary64 evaluates that quotient
    and as its exact value, which is what exact arithmetic gives for the
    same path. *)
Theorem path_zero_example :
  exists a w,
    animate_gamma_path (A:=float) [0%Z] = Done a /\
    GENERATORS (A:=float) !! 0%nat = Some (Matrix 2 1 1 1) /\
    orbit a = [j1; Complex 1.5 0.5] /\
    points_disk a = [Complex 0 0; w] /\
    approx tol_1e9 w (cdiv (Complex 1.5 (-0.5)) (Complex 1.5 1.5)) = true /\
    (let z := apply_mobius (A:=R) (array 2 1 1 1) j1 in
     let v := upper_halfplane_to_disk z in
     z = Complex (3 / 2) (1 / 2) /\
     v = cdiv (Complex (3 / 2) (- 1 / 2)) (Complex (3 / 2) (3 / 2)) /\
     Rabs (F2R (re w) - re v) <= 1 / 10 ^ 9 /\
     Rabs (F2R (im w) - im v) <= 1 / 10 ^ 9)%R.
Proof.
  eexists. exists (Complex 0x1.5555555555555p-2 (-0x1.5555555555555p-1)).
  split; [vm_compute; reflexivity|].
  split; [reflexivity|]. split; [reflexivity|]. split; [reflexivity|].
  split; [vm_compute; reflexivity|].
  cbv zeta. rewrite mobius_basepoint_exact.
  destruct projection_example_exact as [-> ->].
  split; [reflexivity|]. split; [reflexivity|].
  assert (E1 : Prim2SF 0x1.5555555555555p-2
               = S754_finite false 6004799503160661 (-54))
    by (vm_compute; reflexivity).
  assert (E2 : Prim2SF (-0x1.5555555555555p-1)
               = S754_finite true 6004799503160661 (-53))
    by (vm_compute; reflexivity).
  unfold F2R. cbn [re im]. rewrite E1, E2.
  cbv [SF2R cond_Zopp IntDef.Z.opp].
  replace (powerRZ 2 (-54)) with (/ 18014398509481984)%R by (simpl; field).
  replace (powerRZ 2 (-53)) with (/ 9007199254740992)%R by (simpl; field).
  split; apply Rabs_le; lra.
Qed.
End Binary64.

(** ** Further properties of the table and the walk *)

Section TableMore.
Context {A : Type} `{Scalar A}.

Lemma generator_pair (i : Z) :
  0 <= i <= 9 ->
  exists M, GENERATORS_UPPER (A:=A) !! Z.to_nat i = Some M /\
            list_getitem GENERATORS i = Some M /\
            list_getitem GENERATORS (i - 20) = Some M /\
            list_getitem GENERATORS (i + 10) = Some (invert_matrix M) /\
            list_getitem GENERATORS (i - 10) = Some (invert_matrix M).
Proof.
  intros Hi.
  assert (Hc : i = 0 \/ i = 1 \/ i = 2 \/ i = 3 \/ i = 4 \/
               i = 5 \/ i = 6 \/ i = 7 \/ i = 8 \/ i = 9) by lia.
  repeat (destruct Hc as [-> | Hc]); [..|subst i];
    (eexists; repeat split; reflexivity).
Qed.

(** The table pairs each base matrix with the matrix [invert_matrix]
    builds from it: for i in [0,9] the entries at i and i-20 are the base
    matrix, the entries at i+10 and i-10 what [invert_matrix] makes of
    it. *)
Theorem inverse_generator_pairing (i : Z) :
  0 <= i <= 9 ->
  exists M, GENERATORS_UPPER (A:=A) !! Z.to_nat i = Some M /\
            list_getitem GENERATORS i = Some M /\
            list_getitem GENERATORS (i - 20) = Some M /\
            list_getitem GENERATORS (i + 10) = Some (invert_matrix M) /\
            list_getitem GENERATORS (i - 10) = Some (invert_matrix M).
Proof. exact (generator_pair i). Qed.

Lemma getitem_from_start (idx : Z) :
  in_table idx ->
  list_getitem (GENERATORS (A:=A)) (from_start idx)
  = list_getitem GENERATORS idx.
Proof.
  unfold in_table, from_start. intros Hi.
  destruct (Z.ltb_spec idx 0); [|reflexivity].
  rewrite list_getitem_nonneg by lia.
  rewrite list_getitem_neg by (rewrite GENERATORS_length; lia).
  rewrite GENERATORS_length. f_equal. lia.
Qed.

Lemma walk_loop_from_start (gamma : list Z) (st : walk A) :
  Forall in_table gamma ->
  walk_loop (map from_start gamma) st = walk_loop gamma st.
Proof.
  intros Hg. revert st.
  induction Hg as [|idx gamma Hi _ IH]; intros st; simpl; [reflexivity|].
  unfold walk_step. rewrite (getitem_from_start idx Hi).
  destruct (list_getitem GENERATORS idx); [apply IH | reflexivity].
Qed.

(** Counting a subscript from the end of the table or from its start
    makes no difference: replacing every negative element idx of a path
    by idx + 20 gives a path of generator indices in [0,19] with the same
    animation. *)
Theorem negative_indices_normalise (gamma : list Z) :
  Forall in_table gamma ->
  Forall is_generator_index (map from_start gamma) /\
  animate_gamma_path (A:=A) (map from_start gamma) = animate_gamma_path gamma.
Proof.
  intros Hg. split.
  - apply Forall_fmap. eapply Forall_impl; [exact Hg|].
    unfold in_table, is_generator_index, from_start. intros idx Hi. simpl.
    destruct (Z.ltb_spec idx 0); lia.
  - unfold animate_gamma_path. now rewrite walk_loop_from_start.
Qed.

Lemma walk_loop_Done_in_table (gamma : list Z) (st st' : walk A) :
  walk_loop gamma st = Done st' -> Forall in_table gamma.
Proof.
  revert st. induction gamma as [|idx gamma IH]; intros st; simpl.
  - constructor.
  - destruct (Z_le_dec (-20) idx) as [Hl|Hl];
      [destruct (Z_le_dec idx 19) as [Hu|Hu]|].
    + destruct (walk_step st idx) as [st1|]; [|discriminate].
      intros E. constructor; [split; assumption | eapply IH, E].
    + rewrite walk_step_Raised by (unfold in_table; lia). discriminate.
    + rewrite walk_step_Raised by (unfold in_table; lia). discriminate.
Qed.

(** A path is animated exactly when all its elements lie in [-20,19];
    any other path ends in IndexError. *)
Theorem animation_iff_in_table (gamma : list Z) :
  ((exists a, animate_gamma_path (A:=A) gamma = Done a)
   <-> Forall in_table gamma) /\
  ((exists st, animate_gamma_path (A:=A) gamma = Raised IndexError st)
   <-> ~ Forall in_table gamma).
Proof.
  unfold animate_gamma_path.
  destruct (walk_loop gamma walk_init) as [st|e st] eqn:E.
  - pose proof (walk_loop_Done_in_table _ _ _ E) as Hg. split; split.
    + intros _. exact Hg.
    + intros _. eauto.
    + intros [st' E']. discriminate.
    + intros Hn. contradiction.
  - assert (Hn : ~ Forall in_table gamma).
    { intros Hg. destruct (walk_loop_Done gamma walk_init Hg) as [st' E'].
      rewrite E in E'. discriminate. }
    destruct e. split; split.
    + intros [a Ea]. discriminate.
    + intros Hg. contradiction.
    + intros _. exact Hn.
    + intros _. eauto.
Qed.

Lemma prefix_of_map {X Y : Type} (f : X -> Y) (l1 l2 : list X) :
  l1 `prefix_of` l2 -> map f l1 `prefix_of` map f l2.
Proof. intros [k ->]. exists (map f k). apply map_app. Qed.

(** The animation of a path extends the animation of each of its
    prefixes: if [pre ++ post] is animated then so is [pre], and its orbit
    and disk points are the first ones of the longer path. *)
Theorem animation_of_prefix (pre post : list Z) (a : animation A) :
  animate_gamma_path (pre ++ post) = Done a ->
  exists a', animate_gamma_path pre = Done a' /\
             orbit a' `prefix_of` orbit a /\
             points_disk a' `prefix_of` points_disk a /\
             xs a' `prefix_of` xs a /\ ys a' `prefix_of` ys a /\
             (frames a = frames a' + length post)%nat.
Proof.
  unfold animate_gamma_path. rewrite walk_loop_app.
  destruct (walk_loop pre walk_init) as [st1|] eqn:E1; [|discriminate].
  destruct (walk_loop post st1) as [st2|] eqn:E2; [|discriminate].
  intros [= <-]. eexists. split; [reflexivity|]. simpl.
  destruct (walk_loop_inv _ _ _ E1 walk_init_ok) as (Hok1 & _ & _).
  destruct (walk_loop_inv _ _ _ E2 Hok1) as (_ & Hlen & Hpre).
  rewrite !to_disk_map.
  split; [exact Hpre|]. split; [now apply prefix_of_map|].
  split; [now do 2 apply prefix_of_map|]. split; [now do 2 apply prefix_of_map|].
  rewrite !length_map. exact Hlen.
Qed.
End TableMore.

Lemma inverse_generator_pairing_witness :
  exists M, GENERATORS_UPPER (A:=float) !! Z.to_nat 4 = Some M /\
            list_getitem GENERATORS 4 = Some M /\
            list_getitem GENERATORS (4 - 20) = Some M /\
            list_getitem GENERATORS (4 + 10) = Some (invert_matrix M) /\
            list_getitem GENERATORS (4 - 10) = Some (invert_matrix M).
Proof. apply (inverse_generator_pairing 4). lia. Defined.

Lemma negative_indices_normalise_witness :
  Forall is_generator_index (map from_start [3; -1; -20]) /\
  animate_gamma_path (A:=float) (map from_start [3; -1; -20])
  = animate_gamma_path [3; -1; -20].
Proof.
  apply (negative_indices_normalise [3; -1; -20]).
  repeat constructor; unfold in_table; lia.
Defined.

Lemma animation_of_prefix_witness :
  exists a a', animate_gamma_path (A:=float) ([0; 11] ++ [2]) = Done a /\
               animate_gamma_path [0; 11] = Done a' /\
               orbit a' `prefix_of` orbit a /\
               points_disk a' `prefix_of` points_disk a /\
               xs a' `prefix_of` xs a /\ ys a' `prefix_of` ys a /\
               (frames a = frames a' + length [2])%nat.
Proof.
  destruct (animate_gamma_path (A:=float) ([0; 11] ++ [2])) as [a|e st] eqn:E.
  - exists a. destruct (animation_of_prefix [0; 11] [2] a E) as [a' Ha'].
    exists a'. split; [reflexivity | exact Ha'].
  - vm_compute in E. discriminate.
Defined.

(** ** The frames of the animation *)

Section FramesMore.
Context {A : Type}.

Lemma slice_to_succ (l : list A) (k : nat) :
  slice_to l (Z.of_nat k + 1) = take (S k) l.
Proof.
  unfold slice_to. destruct (Z.leb_spec 0 (Z.of_nat k + 1)); [|lia].
  f_equal. lia.
Qed.

Lemma update_frame (xs ys : list A) (art : artists A) (k : nat) (x y : A) :
  xs !! k = Some x -> ys !! k = Some y ->
  update xs ys art (Z.of_nat k)
  = Done (Artists (take (S k) xs, take (S k) ys) ([x], [y])
                  (take (S k) xs, take (S k) ys)).
Proof.
  intros Ex Ey. unfold update. destruct k as [|k].
  - change (Z.of_nat 0 =? 0) with true. cbv iota.
    rewrite !list_getitem_nonneg by lia.
    change (Z.to_nat 0) with 0%nat. rewrite Ex, Ey.
    destruct xs as [|x0 xs]; [discriminate|].
    destruct ys as [|y0 ys]; [discriminate|].
    simpl in *. injection Ex as ->. injection Ey as ->.
    now rewrite !take_0.
  - destruct (Z.eqb_spec (Z.of_nat (S k)) 0); [lia|].
    rewrite !list_getitem_nonneg by lia. rewrite Nat2Z.id, Ex, Ey.
    now rewrite !slice_to_succ.
Qed.

(** On coordinate lists of equal length, [update(frame)] succeeds for each
    frame in [0, len(xs) - 1], whatever the artists held before: the trail
    and the line become the first frame+1 points, and the highlighted
    point is the last of them. Frame 0 follows the same rule although the
    code treats it apart. *)
Theorem update_in_range (xs ys : list A) (art : artists A) (frame : Z) :
  length xs = length ys ->
  0 <= frame < Z.of_nat (length xs) ->
  exists art' x y,
    update xs ys art frame = Done art' /\
    trail art' = (take (S (Z.to_nat frame)) xs, take (S (Z.to_nat frame)) ys) /\
    line art' = trail art' /\
    point art' = ([x], [y]) /\
    last (fst (trail art')) = Some x /\ last (snd (trail art')) = Some y /\
    length (fst (trail art')) = S (Z.to_nat frame) /\
    length (snd (trail art')) = S (Z.to_nat frame).
Proof.
  intros Hlen Hf. set (k := Z.to_nat frame).
  destruct (lookup_lt_is_Some_2 xs k) as [x Ex]; [lia|].
  destruct (lookup_lt_is_Some_2 ys k) as [y Ey]; [lia|].
  eexists _, x, y. replace frame with (Z.of_nat k) by lia.
  rewrite (update_frame _ _ _ _ _ _ Ex Ey).
  cbn [trail line point fst snd].
  split; [reflexivity|]. split; [reflexivity|]. split; [reflexivity|].
  split; [reflexivity|]. cbn [trail line point fst snd].
  rewrite !(take_S_r _ _ _ Ex), !(take_S_r _ _ _ Ey), !last_snoc.
  rewrite !length_app, !length_take. cbn [length].
  apply lookup_lt_Some in Ex, Ey. repeat split; lia.
Qed.

(** A frame number from [len(xs)] on makes [update] raise IndexError. *)
Theorem update_past_the_end (xs ys : list A) (art : artists A) (frame : Z) :
  Z.of_nat (length xs) <= frame ->
  exists art', update xs ys art frame = Raised IndexError art'.
Proof.
  intros Hf. unfold update.
  assert (E : list_getitem xs frame = None)
    by (apply list_getitem_None; lia).
  destruct (Z.eqb_spec frame 0) as [->|Hn].
  - rewrite E. eauto.
  - rewrite E. eauto.
Qed.
End FramesMore.

Section AnimationFrames.
Context {A : Type} `{Scalar A}.

Lemma animate_coordinates (gamma : list Z) (a : animation A) :
  animate_gamma_path gamma = Done a ->
  frames a = S (length gamma) /\
  length (xs a) = frames a /\ length (ys a) = frames a /\
  xs a = map re (points_disk a) /\ ys a = map im (points_disk a).
Proof.
  unfold animate_gamma_path.
  destruct (walk_loop gamma walk_init) as [st|] eqn:E; [|discriminate].
  intros [= <-]. simpl.
  destruct (walk_loop_inv _ _ _ E walk_init_ok) as (_ & Hlen & _).
  rewrite to_disk_map, !length_map, Hlen. auto.
Qed.

(** The animation of a path of L elements has L+1 frames, and [update]
    renders every one of them without raising: frame k shows the first
    k+1 projected points. *)
Theorem every_frame_renders (gamma : list Z) (a : animation A)
        (art : artists A) (frame : Z) :
  animate_gamma_path gamma = Done a ->
  0 <= frame < Z.of_nat (frames a) ->
  frames a = S (length gamma) /\
  exists art' w,
    update (xs a) (ys a) art frame = Done art' /\
    points_disk a !! Z.to_nat frame = Some w /\
    point art' = ([re w], [im w]) /\
    trail art' = (map re (take (S (Z.to_nat frame)) (points_disk a)),
                  map im (take (S (Z.to_nat frame)) (points_disk a))) /\
    line art' = trail art'.
Proof.
  intros Ea Hf.
  destruct (animate_coordinates _ _ Ea) as (Hfr & Hx & Hy & Exs & Eys).
  split; [exact Hfr|]. set (k := Z.to_nat frame).
  destruct (lookup_lt_is_Some_2 (points_disk a) k) as [w Ew].
  { rewrite Exs, length_map in Hx. lia. }
  exists (Artists (take (S k) (xs a), take (S k) (ys a)) ([re w], [im w])
                  (take (S k) (xs a), take (S k) (ys a))), w.
  replace frame with (Z.of_nat k) by lia.
  split.
  - apply update_frame; rewrite ?Exs, ?Eys, list_lookup_fmap, Ew; reflexivity.
  - simpl. rewrite Exs, Eys, <- !fmap_take. auto.
Qed.

(** The last frame shows the whole projected orbit. *)
Theorem last_frame_shows_whole_path (gamma : list Z) (a : animation A)
        (art : artists A) :
  animate_gamma_path gamma = Done a ->
  exists art',
    update (xs a) (ys a) art (Z.of_nat (length gamma)) = Done art' /\
    trail art' = (xs a, ys a) /\ line art' = (xs a, ys a).
Proof.
  intros Ea.
  destruct (animate_coordinates _ _ Ea) as (Hfr & Hx & Hy & _ & _).
  destruct (lookup_lt_is_Some_2 (xs a) (length gamma)) as [x Ex]; [lia|].
  destruct (lookup_lt_is_Some_2 (ys a) (length gamma)) as [y Ey]; [lia|].
  eexists. split; [apply (update_frame _ _ _ _ _ _ Ex Ey)|]. simpl.
  rewrite !take_ge by lia. auto.
Qed.
End AnimationFrames.

(** ** The Mobius action in exact arithmetic *)

Section MobiusExact.
Local Open Scope R_scope.

Lemma mobius_denominator (M : matrix R) (z : complex R) :
  det M <> 0 -> off_axis z ->
  0 < (m10 M * re z + m11 M) * (m10 M * re z + m11 M)
      + (m10 M * im z) * (m10 M * im z).
Proof.
  destruct M as [a b c d], z as [x y]. unfold det, off_axis. simpl.
  intros Hdet Hy.
  destruct (Req_dec c 0) as [->|Hc].
  - assert (Hd : d <> 0) by (intros ->; apply Hdet; ring).
    pose proof (Rsqr_pos_lt _ Hd) as Hsq. unfold Rsqr in Hsq.
    replace ((0 * x + d) * (0 * x + d) + 0 * y * (0 * y)) with (d * d) by ring.
    exact Hsq.
  - assert (Hcy : c * y <> 0)
      by now apply Rmult_integral_contrapositive_currified.
    pose proof (Rsqr_pos_lt _ Hcy) as Hsq.
    pose proof (Rle_0_sqr (c * x + d)) as Hsq'. unfold Rsqr in Hsq, Hsq'.
    lra.
Qed.

(** The value of [apply_mobius] off the real axis, for an invertible
    matrix. *)
Lemma mobius_exact (M : matrix R) (z : complex R) :
  det M <> 0 -> off_axis z ->
  apply_mobius M z =
  Complex (((m00 M * re z + m01 M) * (m10 M * re z + m11 M)
            + m00 M * m10 M * (im z * im z))
           / ((m10 M * re z + m11 M) * (m10 M * re z + m11 M)
              + (m10 M * im z) * (m10 M * im z)))
          (det M * im z
           / ((m10 M * re z + m11 M) * (m10 M * re z + m11 M)
              + (m10 M * im z) * (m10 M * im z))).
Proof.
  intros Hdet Hy. pose proof (mobius_denominator M z Hdet Hy) as HD.
  destruct M as [a b c d], z as [x y]. unfold det, off_axis in *.
  simpl in *. unfold apply_mobius.
  rewrite cdiv_exact.
  - simpl. f_equal; field; nra.
  - simpl. destruct (Req_dec c 0) as [->|Hc].
    + left. assert (d <> 0) by (intros ->; apply Hdet; ring). lra.
    + right. intros E.
      assert (Hcy : c * y <> 0)
        by now apply Rmult_integral_contrapositive_currified.
      apply Hcy. lra.
Qed.

Lemma mobius_off_axis (M : matrix R) (z : complex R) :
  det M <> 0 -> off_axis z -> off_axis (apply_mobius M z).
Proof.
  intros Hdet Hy. pose proof (mobius_denominator M z Hdet Hy) as HD.
  rewrite mobius_exact by assumption. unfold off_axis in *. simpl.
  apply Rmult_integral_contrapositive_currified.
  - now apply Rmult_integral_contrapositive_currified.
  - apply Rinv_neq_0_compat. lra.
Qed.
(** For a real matrix M with nonzero determinant and z off the real axis,
    Im(M.z) = det(M) Im(z) / |cz + d|^2: a matrix of positive determinant
    keeps the upper half-plane, one of negative determinant sends it to the
    lower half-plane. *)
Theorem mobius_half_plane (M : matrix R) (z : complex R) :
  det M <> 0 -> 0 < im z ->
  im (apply_mobius M z)
  = det M * im z / ((m10 M * re z + m11 M) * (m10 M * re z + m11 M)
                    + (m10 M * im z) * (m10 M * im z)) /\
  (0 < det M -> 0 < im (apply_mobius M z)) /\
  (det M < 0 -> im (apply_mobius M z) < 0).
Proof.
  intros Hdet Hy. assert (Hz : off_axis z) by (unfold off_axis; lra).
  pose proof (mobius_denominator M z Hdet Hz) as HD.
  rewrite mobius_exact by assumption. simpl.
  split; [reflexivity|].
  set (D := (m10 M * re z + m11 M) * (m10 M * re z + m11 M)
            + (m10 M * im z) * (m10 M * im z)) in *.
  pose proof (Rinv_0_lt_compat _ HD) as Hi. unfold Rdiv.
  split; intros Hs.
  - apply Rmult_lt_0_compat; [nra | exact Hi].
  - apply Ropp_lt_cancel. rewrite Ropp_0, Ropp_mult_distr_l.
    apply Rmult_lt_0_compat; [nra | exact Hi].
Qed.

Lemma det_mat_mul (M N : matrix R) : det (mat_mul M N) = det M * det N.
Proof. destruct M, N. unfold det, mat_mul. simpl. ring. Qed.

Lemma det_invert_matrix (M : matrix R) : det (invert_matrix M) = det M.
Proof. destruct M. unfold det, invert_matrix. simpl. ring. Qed.

Lemma mobius_mat_mul (M N : matrix R) (z : complex R) :
  det M <> 0 -> det N <> 0 -> off_axis z ->
  apply_mobius (mat_mul M N) z = apply_mobius M (apply_mobius N z).
Proof.
  intros HM HN Hz.
  pose proof (mobius_off_axis N z HN Hz) as Hz'.
  pose proof (mobius_denominator N z HN Hz) as HDN.
  pose proof (mobius_denominator M _ HM Hz') as HDM.
  assert (HMN : det (mat_mul M N) <> 0).
  { rewrite det_mat_mul. now apply Rmult_integral_contrapositive_currified. }
  pose proof (mobius_denominator _ z HMN Hz) as HDMN.
  rewrite (mobius_exact M _ HM Hz'), (mobius_exact _ z HMN Hz).
  rewrite (mobius_exact N z HN Hz) in HDM |- *.
  destruct M as [a b c d], N as [e f g h], z as [x y].
  unfold det, mat_mul, off_axis in *. simpl in *.
  assert (HE : (c * ((e * x + f) * (g * x + h) + e * g * (y * y))
                + d * ((g * x + h) * (g * x + h) + g * y * (g * y)))
               * (c * ((e * x + f) * (g * x + h) + e * g * (y * y))
                  + d * ((g * x + h) * (g * x + h) + g * y * (g * y)))
               + c * ((e * h - f * g) * y) * (c * ((e * h - f * g) * y))
               <> 0).
  { match type of HDM with 0 < ?E => set (K := E) in * end.
    set (DN := (g * x + h) * (g * x + h) + g * y * (g * y)) in *.
    assert (HK : 0 < K * (DN * DN))
      by (apply Rmult_lt_0_compat; [exact HDM | nra]).
    match goal with |- ?E <> 0 => replace E with (K * (DN * DN)) end;
      [lra|]. unfold K. field. lra. }
  f_equal; field; repeat split; try lra; exact HE.
Qed.
(** The action composes: for real matrices of nonzero determinant and z
    off the real axis, the product matrix acts as one matrix after the
    other. *)
Theorem mobius_compose (M N : matrix R) (z : complex R) :
  det M <> 0 -> det N <> 0 -> off_axis z ->
  apply_mobius (mat_mul M N) z = apply_mobius M (apply_mobius N z).
Proof. exact (mobius_mat_mul M N z). Qed.

Lemma mobius_scalar (k : R) (z : complex R) :
  k <> 0 -> off_axis z -> apply_mobius (Matrix k 0 0 k) z = z.
Proof.
  intros Hk Hz.
  assert (Hdet : det (Matrix k 0 0 k) <> 0).
  { unfold det. simpl. nra. }
  pose proof (mobius_denominator _ z Hdet Hz) as HD.
  rewrite mobius_exact by assumption.
  destruct z as [x y]. unfold det, off_axis in *. simpl in *.
  f_equal; field; lra.
Qed.

Lemma mobius_invert_matrix (M : matrix R) (z : complex R) :
  det M <> 0 -> off_axis z ->
  apply_mobius (invert_matrix M) (apply_mobius M z) = z /\
  apply_mobius M (apply_mobius (invert_matrix M) z) = z.
Proof.
  intros Hdet Hz.
  assert (Hdet' : det (invert_matrix M) <> 0) by now rewrite det_invert_matrix.
  rewrite <- !mobius_mat_mul by assumption.
  replace (mat_mul (invert_matrix M) M) with (Matrix (det M) 0 0 (det M)).
  replace (mat_mul M (invert_matrix M)) with (Matrix (det M) 0 0 (det M)).
  - split; now apply mobius_scalar.
  - destruct M. unfold mat_mul, invert_matrix, det. simpl. f_equal; ring.
  - destruct M. unfold mat_mul, invert_matrix, det. simpl. f_equal; ring.
Qed.

(** In exact arithmetic [invert_matrix M] undoes the action of M, on
    either side, for every real M of nonzero determinant, whether or not
    the determinant is 1. *)
Theorem mobius_round_trip (M : matrix R) (z : complex R) :
  det M <> 0 -> off_axis z ->
  apply_mobius (invert_matrix M) (apply_mobius M z) = z /\
  apply_mobius M (apply_mobius (invert_matrix M) z) = z.
Proof. exact (mobius_invert_matrix M z). Qed.

Lemma generators_invertible :
  Forall (fun M => det M <> 0) (GENERATORS (A:=R)).
Proof.
  rewrite GENERATORS_eq. unfold GENERATORS_UPPER. simpl.
  repeat constructor; unfold det, invert_matrix, array; simpl; lra.
Qed.

Lemma getitem_elem_of {X : Type} (l : list X) (i : Z) (x : X) :
  list_getitem l i = Some x -> x ∈ l.
Proof.
  unfold list_getitem.
  destruct (0 <=? i)%Z; [apply list_elem_of_lookup_2|].
  destruct (- Z.of_nat (length l) <=? i)%Z;
    [apply list_elem_of_lookup_2 | discriminate].
Qed.

Lemma generator_det (idx : Z) (M : matrix R) :
  list_getitem GENERATORS idx = Some M -> det M <> 0.
Proof.
  intros E. apply getitem_elem_of in E.
  pose proof generators_invertible as HG.
  rewrite Forall_forall in HG. now apply HG.
Qed.

Lemma walk_loop_off_axis (gamma : list Z) (st st' : walk R) :
  walk_loop gamma st = Done st' ->
  off_axis (current st) -> Forall off_axis (points_upper st) ->
  off_axis (current st') /\ Forall off_axis (points_upper st').
Proof.
  revert st. induction gamma as [|idx gamma IH]; intros st; simpl.
  - intros [= <-]. auto.
  - unfold walk_step at 1.
    destruct (list_getitem GENERATORS idx) as [M|] eqn:EM; [|discriminate].
    intros E Hc Hp. apply IH in E; [exact E | |]; simpl.
    + apply mobius_off_axis; [eapply generator_det, EM | exact Hc].
    + apply Forall_app. split; [exact Hp|]. constructor; [|constructor].
      apply mobius_off_axis; [eapply generator_det, EM | exact Hc].
Qed.

Lemma j1_off_axis : off_axis j1.
Proof. unfold off_axis. simpl. lra. Qed.

(** In exact arithmetic no step of a walk is degenerate: every orbit point
    of a path over the table lies off the real axis, so the denominator
    cz + d of the step taken from it is not zero. *)
Theorem exact_orbit_off_axis (gamma : list Z) :
  Forall in_table gamma ->
  exists a, animate_gamma_path (A:=R) gamma = Done a /\
    Forall off_axis (orbit a) /\
    (forall k idx M z,
       gamma !! k = Some idx -> list_getitem GENERATORS idx = Some M ->
       orbit a !! k = Some z ->
       m10 M * re z + m11 M <> 0 \/ m10 M * im z <> 0).
Proof.
  intros Hg. destruct (walk_loop_Done gamma walk_init Hg) as [st E].
  destruct (animate_Done _ _ E) as (a & Ea & Eo & _).
  destruct (walk_loop_off_axis _ _ _ E j1_off_axis) as [_ Hoff].
  { constructor; [exact j1_off_axis | constructor]. }
  exists a. rewrite Eo. split; [exact Ea|]. split; [exact Hoff|].
  intros k idx M z _ EM Ez.
  assert (Hz : off_axis z).
  { rewrite Forall_forall in Hoff. eapply Hoff, list_elem_of_lookup_2, Ez. }
  pose proof (mobius_denominator M z (generator_det _ _ EM) Hz) as HD.
  destruct (Req_dec (m10 M * re z + m11 M) 0) as [E0|]; [|now left].
  right. intros E1. rewrite E0, E1 in HD. lra.
Qed.
Lemma projection_norm_sq (z : complex R) :
  re z <> 0 \/ im z <> -1 ->
  0 < re z * re z + (im z + 1) * (im z + 1) /\
  norm_sq (upper_halfplane_to_disk z)
  = 1 - 4 * im z / (re z * re z + (im z + 1) * (im z + 1)).
Proof.
  destruct z as [x y]. simpl. intros Hz.
  assert (HD : 0 < x * x + (y + 1) * (y + 1)).
  { destruct Hz as [Hx|Hy].
    - pose proof (Rsqr_pos_lt _ Hx) as Hs.
      pose proof (Rle_0_sqr (y + 1)) as Hs'. unfold Rsqr in Hs, Hs'. lra.
    - assert (Hy1 : y + 1 <> 0) by lra.
      pose proof (Rsqr_pos_lt _ Hy1) as Hs.
      pose proof (Rle_0_sqr x) as Hs'. unfold Rsqr in Hs, Hs'. lra. }
  split; [exact HD|].
  unfold upper_halfplane_to_disk. rewrite cdiv_exact.
  - unfold norm_sq. simpl. field. lra.
  - simpl. destruct Hz; [left | right]; lra.
Qed.

(** In exact arithmetic the projection tells the half-planes apart: away
    from its pole -i, it sends z strictly inside the unit circle exactly
    when Im z > 0, onto the circle exactly when z is real, and strictly
    outside exactly when Im z < 0. *)
Theorem projection_side (z : complex R) :
  re z <> 0 \/ im z <> -1 ->
  (norm_sq (upper_halfplane_to_disk z) < 1 <-> 0 < im z) /\
  (norm_sq (upper_halfplane_to_disk z) = 1 <-> im z = 0) /\
  (1 < norm_sq (upper_halfplane_to_disk z) <-> im z < 0).
Proof.
  intros Hz. destruct (projection_norm_sq z Hz) as [HD ->].
  set (D := re z * re z + (im z + 1) * (im z + 1)) in *.
  pose proof (Rinv_0_lt_compat _ HD) as Hi. unfold Rdiv.
  set (t := / D) in *.
  destruct (Rtotal_order (im z) 0) as [Hy|[Hy|Hy]].
  - assert (4 * im z * t < 0) by nra. repeat split; intros; lra.
  - rewrite Hy. repeat split; intros; lra.
  - assert (0 < 4 * im z * t) by nra. repeat split; intros; lra.
Qed.

Lemma walk_loop_upper (gamma : list Z) (st st' : walk R) :
  Forall orientation_preserving gamma ->
  walk_loop gamma st = Done st' ->
  0 < im (current st) -> Forall (fun z => 0 < im z) (points_upper st) ->
  Forall (fun z => 0 < im z) (points_upper st').
Proof.
  intros Hg. revert st.
  induction Hg as [|idx gamma (M & EM & HM) _ IH]; intros st; simpl.
  - now intros [= <-].
  - unfold walk_step at 1. rewrite EM. intros E Hc Hp.
    assert (Hup : 0 < im (apply_mobius M (current st))).
    { assert (Hdet : det M <> 0) by lra.
      assert (Hz : off_axis (current st)) by (unfold off_axis; lra).
      pose proof (mobius_denominator M _ Hdet Hz) as HD.
      rewrite mobius_exact by assumption. cbn [im].
      apply Rdiv_lt_0_compat;
        [apply Rmult_lt_0_compat; assumption | exact HD]. }
    apply IH in E; [exact E | exact Hup |].
    apply Forall_app. split; [exact Hp|]. constructor; [exact Hup|constructor].
Qed.

Lemma orientation_preserving_in_table (gamma : list Z) :
  Forall orientation_preserving gamma -> Forall in_table gamma.
Proof.
  intros Hg. eapply Forall_impl; [exact Hg|]. simpl.
  intros idx (M & EM & _). unfold in_table.
  destruct (Z_le_dec (-20) idx); [destruct (Z_le_dec idx 19)|]; [lia|..];
    rewrite generator_off_table in EM by (unfold in_table; lia);
    discriminate.
Qed.

(** In exact arithmetic a path over the matrices of positive determinant
    keeps its orbit in the upper half-plane, and all its disk points lie
    strictly inside the unit circle. *)
Theorem orientation_preserving_path_stays_in_disk (gamma : list Z) :
  Forall orientation_preserving gamma ->
  exists a, animate_gamma_path (A:=R) gamma = Done a /\
            Forall (fun z => 0 < im z) (orbit a) /\
            Forall (fun w => norm_sq w < 1) (points_disk a).
Proof.
  intros Hg.
  destruct (walk_loop_Done gamma walk_init
              (orientation_preserving_in_table _ Hg)) as [st E].
  destruct (animate_Done _ _ E) as (a & Ea & Eo & Ed & _).
  assert (Hup : Forall (fun z => 0 < im z) (points_upper st)).
  { apply (walk_loop_upper gamma walk_init st Hg E); simpl; [lra|].
    constructor; [simpl; lra | constructor]. }
  exists a. rewrite Eo, Ed. split; [exact Ea|]. split; [exact Hup|].
  apply Forall_fmap. eapply Forall_impl; [exact Hup|].
  intros z Hz. cbv beta in Hz |- *. unfold compose.
  change (disk_point z) with (upper_halfplane_to_disk z).
  destruct (projection_norm_sq z) as [HD ->]; [right; lra|].
  assert (0 < 4 * im z / (re z * re z + (im z + 1) * (im z + 1)))
    by (apply Rdiv_lt_0_compat; lra).
  lra.
Qed.

(** In exact arithmetic a base generator followed by its paired matrix, or
    the pair in the other order, brings the walk back to the basepoint. *)
Theorem inverse_pair_returns (i : Z) :
  (0 <= i <= 9)%Z ->
  (exists a z, animate_gamma_path (A:=R) [i; i + 10]%Z = Done a /\
               orbit a = [j1; z; j1]) /\
  (exists a z, animate_gamma_path (A:=R) [i + 10; i]%Z = Done a /\
               orbit a = [j1; z; j1]).
Proof.
  intros Hi.
  destruct (generator_pair (A:=R) i Hi) as (M & _ & EM & _ & EI & _).
  pose proof (generator_det _ _ EM) as Hdet.
  destruct (mobius_invert_matrix M j1 Hdet j1_off_axis) as [E1 E2].
  split.
  - destruct (animate_Done (A:=R) [i; i + 10]%Z
                (Walk j1 [j1; apply_mobius M j1; j1])) as (a & Ea & Eo & _).
    + simpl. rewrite (walk_step_Done _ _ _ EM). simpl.
      rewrite (walk_step_Done _ _ _ EI). simpl. now rewrite E1.
    + exists a, (apply_mobius M j1). auto.
  - destruct (animate_Done (A:=R) [i + 10; i]%Z
                (Walk j1 [j1; apply_mobius (invert_matrix M) j1; j1]))
      as (a & Ea & Eo & _).
    + simpl. rewrite (walk_step_Done _ _ _ EI). simpl.
      rewrite (walk_step_Done _ _ _ EM). simpl. now rewrite E2.
    + exists a, (apply_mobius (invert_matrix M) j1). auto.
Qed.
End MobiusExact.

Section MobiusExactWitnesses.
Local Open Scope R_scope.

Lemma mobius_half_plane_witness :
  im (apply_mobius (array 5 3 2 1) (Complex 0 1))
  = det (array 5 3 2 1) * im (Complex 0 1)
    / ((m10 (array 5 3 2 1) * re (Complex 0 1) + m11 (array 5 3 2 1))
       * (m10 (array 5 3 2 1) * re (Complex 0 1) + m11 (array 5 3 2 1))
       + (m10 (array 5 3 2 1) * im (Complex 0 1))
         * (m10 (array 5 3 2 1) * im (Complex 0 1))) /\
  (0 < det (array 5 3 2 1) ->
   0 < im (apply_mobius (array 5 3 2 1) (Complex 0 1))) /\
  (det (array 5 3 2 1) < 0 ->
   im (apply_mobius (array 5 3 2 1) (Complex 0 1)) < 0).
Proof.
  apply (mobius_half_plane (array 5 3 2 1) (Complex 0 1)).
  - unfold det. simpl. lra.
  - simpl. lra.
Defined.

Lemma mobius_compose_witness :
  apply_mobius (mat_mul (array 2 1 1 1) (array 5 3 2 1)) (Complex 0 1)
  = apply_mobius (array 2 1 1 1) (apply_mobius (array 5 3 2 1) (Complex 0 1)).
Proof.
  apply (mobius_compose (array 2 1 1 1) (array 5 3 2 1) (Complex 0 1)).
  - unfold det. simpl. lra.
  - unfold det. simpl. lra.
  - unfold off_axis. simpl. lra.
Defined.

Lemma mobius_round_trip_witness :
  apply_mobius (invert_matrix (array 7 4 3 2))
               (apply_mobius (array 7 4 3 2) (Complex 0 1)) = Complex 0 1 /\
  apply_mobius (array 7 4 3 2)
               (apply_mobius (invert_matrix (array 7 4 3 2)) (Complex 0 1))
  = Complex 0 1.
Proof.
  apply (mobius_round_trip (array 7 4 3 2) (Complex 0 1)).
  - unfold det. simpl. lra.
  - unfold off_axis. simpl. lra.
Defined.

Lemma exact_orbit_off_axis_witness :
  exists a, animate_gamma_path (A:=R) [2; -3; 19]%Z = Done a /\
    Forall off_axis (orbit a) /\
    (forall k idx M z,
       [2; -3; 19]%Z !! k = Some idx -> list_getitem GENERATORS idx = Some M ->
       orbit a !! k = Some z ->
       m10 M * re z + m11 M <> 0 \/ m10 M * im z <> 0).
Proof.
  apply (exact_orbit_off_axis [2; -3; 19]%Z).
  repeat constructor; unfold in_table; lia.
Defined.

Lemma projection_side_witness :
  (norm_sq (upper_halfplane_to_disk (Complex 2 (-1))) < 1
   <-> 0 < im (Complex 2 (-1))) /\
  (norm_sq (upper_halfplane_to_disk (Complex 2 (-1))) = 1
   <-> im (Complex 2 (-1)) = 0) /\
  (1 < norm_sq (upper_halfplane_to_disk (Complex 2 (-1)))
   <-> im (Complex 2 (-1)) < 0).
Proof.
  apply (projection_side (Complex 2 (-1))). left. simpl. lra.
Defined.

Lemma orientation_preserving_path_stays_in_disk_witness :
  exists a, animate_gamma_path (A:=R) [0; 14; -12]%Z = Done a /\
            Forall (fun z => 0 < im z) (orbit a) /\
            Forall (fun w => norm_sq w < 1) (points_disk a).
Proof.
  apply (orientation_preserving_path_stays_in_disk [0; 14; -12]%Z).
  repeat constructor; (eexists; split; [reflexivity|]);
    unfold det, invert_matrix, array; simpl; lra.
Defined.

Lemma inverse_pair_returns_witness :
  (exists a z, animate_gamma_path (A:=R) [6; 6 + 10]%Z = Done a /\
               orbit a = [j1; z; j1]) /\
  (exists a z, animate_gamma_path (A:=R) [6 + 10; 6]%Z = Done a /\
               orbit a = [j1; z; j1]).
Proof. apply (inverse_pair_returns 6). lia. Defined.
End MobiusExactWitnesses.

(** ** [invert_matrix] and [__main__] *)

Lemma float_opp_involutive (x : float) : (- - x)%float = x.
Proof.
  apply Prim2SF_inj. rewrite !opp_spec.
  destruct (Prim2SF x); simpl; try reflexivity; now rewrite negb_involutive.
Qed.

(** [invert_matrix] is an involution, on every binary64 matrix (those with
    infinite or NaN entries included) and on every real matrix, and over
    the reals it keeps the determinant. *)
Theorem invert_matrix_involutive :
  (forall M : matrix float, invert_matrix (invert_matrix M) = M) /\
  (forall M : matrix R, invert_matrix (invert_matrix M) = M /\
                        det (invert_matrix M) = det M).
Proof.
  split.
  - intros [a b c d]. unfold invert_matrix. simpl.
    now rewrite !float_opp_involutive.
  - intros [a b c d]. unfold invert_matrix, det. simpl.
    split; [f_equal; ring | ring].
Qed.

Section MainMore.
Context {A : Type} `{Scalar A}.

(** The path [__main__] animates is the [gamma] field when the object has
    one, whatever it holds under [private_key], and the [private_key]
    field otherwise; the run completes, with one frame more than the path
    has elements, exactly when all elements of that field lie in
    [-20,19]. *)
Theorem main_selects_path (data : gmap string (list Z)) (g : list Z) :
  data !! "gamma" = Some g \/
  (data !! "gamma" = None /\ data !! "private_key" = Some g) ->
  main (A:=A) (Some data) = animate_gamma_path g /\
  ((exists a, main (A:=A) (Some data) = Done a /\ frames a = S (length g))
   <-> Forall in_table g).
Proof.
  intros Hsel.
  assert (E : main (A:=A) (Some data) = animate_gamma_path g).
  { unfold main, dict_get. destruct Hsel as [-> | [-> ->]]; reflexivity. }
  split; [exact E|]. rewrite E. split.
  - intros (a & Ea & _). unfold animate_gamma_path in Ea.
    destruct (walk_loop g walk_init) as [st|] eqn:Ew; [|discriminate].
    eapply walk_loop_Done_in_table, Ew.
  - intros Hg. destruct (walk_loop_Done g walk_init Hg) as [st Ew].
    destruct (animate_Done _ _ Ew) as (a & Ea & _ & _ & Hf).
    exists a. split; [exact Ea|]. rewrite Hf.
    now destruct (walk_loop_inv _ _ _ Ew walk_init_ok) as (_ & -> & _).
Qed.
End MainMore.

Lemma main_selects_path_witness :
  main (A:=float)
       (Some {[ "gamma" := [0; -1]; "private_key" := [25] ]}) 
  = animate_gamma_path [0; -1] /\
  ((exists a, main (A:=float)
                (Some {[ "gamma" := [0; -1]; "private_key" := [25] ]})
              = Done a /\ frames a = S (length [0; -1]))
   <-> Forall in_table [0; -1]).
Proof.
  apply (main_selects_path {[ "gamma" := [0; -1]; "private_key" := [25] ]}
                           [0; -1]).
  left. reflexivity.
Defined.

Lemma update_in_range_witness :
  exists art' x y,
    update [10; 20; 30] [1; 2; 3] (Artists ([], []) ([], []) ([], [])) 1
    = Done art' /\
    trail art' = (take (S (Z.to_nat 1)) [10; 20; 30],
                  take (S (Z.to_nat 1)) [1; 2; 3]) /\
    line art' = trail art' /\
    point art' = ([x], [y]) /\
    last (fst (trail art')) = Some x /\ last (snd (trail art')) = Some y /\
    length (fst (trail art')) = S (Z.to_nat 1) /\
    length (snd (trail art')) = S (Z.to_nat 1).
Proof.
  apply (update_in_range [10; 20; 30] [1; 2; 3]
                         (Artists ([], []) ([], []) ([], [])) 1).
  - reflexivity.
  - simpl. lia.
Defined.

Lemma update_past_the_end_witness :
  exists art',
    update [10; 20; 30] [1; 2; 3] (Artists ([], []) ([], []) ([], [])) 3
    = Raised IndexError art'.
Proof.
  apply (update_past_the_end [10; 20; 30] [1; 2; 3]
                             (Artists ([], []) ([], []) ([], [])) 3).
  simpl. lia.
Defined.

Lemma every_frame_renders_witness :
  exists a,
    animate_gamma_path (A:=float) [0; 5] = Done a /\
    frames a = S (length [0; 5]) /\
    exists art' w,
      update (xs a) (ys a) (init (Artists ([], []) ([], []) ([], []))) 2
      = Done art' /\
      points_disk a !! Z.to_nat 2 = Some w /\
      point art' = ([re w], [im w]) /\
      trail art' = (map re (take (S (Z.to_nat 2)) (points_disk a)),
                    map im (take (S (Z.to_nat 2)) (points_disk a))) /\
      line art' = trail art'.
Proof.
  destruct (animate_gamma_path (A:=float) [0; 5]) as [a|e st] eqn:E.
  - exists a. split; [reflexivity|].
    apply (every_frame_renders [0; 5] a _ 2 E).
    destruct (animate_coordinates _ _ E) as [-> _]. simpl. lia.
  - vm_compute in E. discriminate.
Defined.

Lemma last_frame_shows_whole_path_witness :
  exists a art',
    animate_gamma_path (A:=float) [0; 5] = Done a /\
    update (xs a) (ys a) (Artists ([], []) ([], []) ([], []))
           (Z.of_nat (length [0; 5])) = Done art' /\
    trail art' = (xs a, ys a) /\ line art' = (xs a, ys a).
Proof.
  destruct (animate_gamma_path (A:=float) [0; 5]) as [a|e st] eqn:E.
  - destruct (last_frame_shows_whole_path [0; 5] a
                (Artists ([], []) ([], []) ([], [])) E) as (art' & Ha).
    exists a, art'. split; [reflexivity | exact Ha].
  - vm_compute in E. discriminate.
Defined.
